(** * A shallow embedding of the W.A.T.E.R. host core (gaukas/water)

    The files covered:
    - the version registry of package [water] (maps [mapOBRCV], [mapIBRCV]
      and their lookup and registration functions);
    - [WrapConnectFunc] and the stubbed connect function of transport v0;
    - the [ManagedDialer] of internal/v0;
    - the runtime connection life cycle and the byte-reversing round trip,
      whose code is not part of the sources and is modelled from the spec. *)

From stdpp Require Import base gmap strings pretty list.
From Stdlib Require Import ZArith.
Open Scope Z_scope.

(** ** Go values shared by all the files *)

(** A Go [error] value; only its message is observable. *)
Record GoError := { Error : string }.

(** [fmt.Errorf] / [fmt.Sprintf] with one [%d] verb applied to an integer:
    the format is split into the text before and after the verb. *)
Definition sprintf_d (before : string) (d : Z) (after : string) : string :=
  before +:+ pretty d +:+ after.

(** A Go call either returns normally or panics with a message. *)
Inductive GoOutcome (A : Type) :=
| Return (a : A)
| Panic (msg : string).
Arguments Return {A} a.
Arguments Panic {A} msg.

(** ** Package water: the version registry (src/unnamed/part_000) *)
Module Registry.
Section Registry.

  (** [*runtimeCore], [net.Conn] and [RuntimeConn] are opaque to the
      registry: it only stores and calls the constructors. *)
Context {runtimeCore netConn RuntimeConn : Type}.

  (** The Go pair [(RuntimeConn, error)]; [None] is [nil]. *)
Definition ConnResult : Type := option RuntimeConn * option GoError.

Definition OutboundCtor : Type := runtimeCore -> ConnResult.
Definition InboundCtor : Type := runtimeCore -> netConn -> ConnResult.

  (** The two package-level maps, keyed by the [int32] version. *)
Record registry := {
    mapOBRCV : gmap Z OutboundCtor;
    mapIBRCV : gmap Z InboundCtor
  }.

Definition unknown_version_error (version : Z) : GoError :=
    {| Error := sprintf_d "water: unknown version: " version "" |}.

Definition already_registered_msg (version : Z) : string :=
    sprintf_d "water: version " version " already registered".

  (** Lookups only read the maps; the registry is threaded through to
      make that visible. *)
Definition OutboundRuntimeConnWithVersion (r : registry)
      (core : runtimeCore) (version : Z) : ConnResult * registry :=
    match mapOBRCV r !! version with
    | None => ((None, Some (unknown_version_error version)), r)
    | Some f => (f core, r)
    end.

Definition InboundRuntimeConnWithVersion (r : registry)
      (core : runtimeCore) (version : Z) (ibc : netConn)
      : ConnResult * registry :=
    match mapIBRCV r !! version with
    | None => ((None, Some (unknown_version_error version)), r)
    | Some f => (f core ibc, r)
    end.

Definition RegisterOutboundRuntimeConnWithVersion (r : registry)
      (version : Z) (f : OutboundCtor) : GoOutcome registry :=
    match mapOBRCV r !! version with
    | Some _ => Panic (already_registered_msg version)
    | None => Return {| mapOBRCV := <[version := f]> (mapOBRCV r);
                        mapIBRCV := mapIBRCV r |}
    end.

Definition RegisterInboundRuntimeConnWithVersion (r : registry)
      (version : Z) (f : InboundCtor) : GoOutcome registry :=
    match mapIBRCV r !! version with
    | Some _ => Panic (already_registered_msg version)
    | None => Return {| mapOBRCV := mapOBRCV r;
                        mapIBRCV := <[version := f]> (mapIBRCV r) |}
    end.

  (** Process start: the maps are created empty by [make]. *)
Definition empty_registry : registry :=
    {| mapOBRCV := ∅; mapIBRCV := ∅ |}.

  (** A sequence of registrations, as the [init] functions of the
      version packages perform them; a panic stops the sequence. *)
Inductive registration :=
  | RegOutbound (version : Z) (f : OutboundCtor)
  | RegInbound (version : Z) (f : InboundCtor).

Definition register (r : registry) (op : registration) : GoOutcome registry :=
    match op with
    | RegOutbound v f => RegisterOutboundRuntimeConnWithVersion r v f
    | RegInbound v f => RegisterInboundRuntimeConnWithVersion r v f
    end.

Fixpoint register_all (r : registry) (ops : list registration)
      : GoOutcome registry :=
    match ops with
    | [] => Return r
    | op :: ops' =>
        match register r op with
        | Return r' => register_all r' ops'
        | Panic msg => Panic msg
        end
    end.

  (** The versions a registration sequence adds to each map. *)
Definition outbound_version (op : registration) : option Z :=
    match op with RegOutbound v _ => Some v | RegInbound _ _ => None end.

Definition inbound_version (op : registration) : option Z :=
    match op with RegInbound v _ => Some v | RegOutbound _ _ => None end.

Definition outbound_versions (ops : list registration) : list Z :=
    omap outbound_version ops.

Definition inbound_versions (ops : list registration) : list Z :=
    omap inbound_version ops.

End Registry.
End Registry.

(** ** Package transport/v0: the connect host import (src/unnamed/part_001) *)
Module V0.

  (** [wasmtime.Val]; the connect import only ever builds [ValI32]. *)
Inductive Val := ValI32 (x : Z).

  (** [*wasmtime.Trap]: a trap built by [wasmtime.NewTrap(msg)]. *)
Record Trap := { trap_message : string }.
Definition NewTrap (msg : string) : Trap := {| trap_message := msg |}.

  (** [wasmtime.ValKind] and [wasmtime.FuncType]: the signature a host
      function is declared with. *)
Inductive ValKind := KindI32 | KindI64 | KindF32 | KindF64 | KindExternref | KindFuncref.

Record FuncType := { params : list ValKind; results : list ValKind }.

Definition val_kind (v : Val) : ValKind :=
  match v with ValI32 _ => KindI32 end.

  (** [WASIConnectFuncType]: no parameter, one i32 result (the fd). *)
Definition WASIConnectFuncType : FuncType :=
  {| params := []; results := [KindI32] |}.

Section Connect.

  (** The caller handle and the host state a connect function may act on
      (sockets, files); a connect function is a state transformer. *)
Context {Caller World : Type}.

  (** Modelled from the spec: the error codes [wasm.INVALID_ARGUMENT] and
      [wasm.INVALID_FUNCTION] of internal/wasm are not part of the sources;
      the spec only says error codes are negative. *)
Context (INVALID_ARGUMENT INVALID_FUNCTION : Z).

  (** [WASIConnectFunc = func(caller *wasmtime.Caller) (fd int32, err error)] *)
Definition WASIConnectFunc : Type :=
    Caller -> World -> World * (Z * option GoError).

  (** [wasm.WASMTIMEStoreIndependentFunction]:
      [func(caller, vals) (results, trap)] *)
Definition HostFunction : Type :=
    Caller -> list Val -> World -> World * (list Val * option Trap).

Definition WrapConnectFunc (f : WASIConnectFunc) : HostFunction :=
    fun caller vals w =>
      if negb (Nat.eqb (length vals) 0) then
        (w, ([ValI32 INVALID_ARGUMENT],
             Some (NewTrap (sprintf_d "v0.WASIConnectFunc expects 0 argument, got "
                              (Z.of_nat (length vals)) ""))))
      else
        let '(w', (fd, err)) := f caller w in
        match err with
        | Some e =>
            (w', ([ValI32 fd], Some (NewTrap ("v0.WASIConnectFunc: " +:+ Error e))))
        | None => (w', ([ValI32 fd], None))
        end.

Definition unimplementedWASIConnectFunc : WASIConnectFunc :=
    fun _ w => (w, (INVALID_FUNCTION,
                    Some {| Error := "NOP WASIConnectFunc is called" |})).

Definition WrappedUnimplementedWASIConnectFunc : HostFunction :=
    WrapConnectFunc unimplementedWASIConnectFunc.

End Connect.
End V0.

(** ** Package internal/v0: the managed dialer (managed_dialer.go) *)
Module ManagedDialerV0.
Section ManagedDialer.

  (** [net.Conn] and the host state a dial acts on. *)
Context {netConn World : Type}.

Definition DialerFunc : Type :=
    string -> string -> World -> World * (option netConn * option GoError).

  (** The fields are unexported and [ManagedDialer] has no setter. *)
Record ManagedDialer := {
    network : string;
    address : string;
    dialerFunc : DialerFunc
  }.

Definition NewManagedDialer (network address : string) (dialerFunc : DialerFunc)
      : ManagedDialer :=
    {| network := network; address := address; dialerFunc := dialerFunc |}.

Definition Dial (md : ManagedDialer)
      : World -> World * (option netConn * option GoError) :=
    dialerFunc md (network md) (address md).

End ManagedDialer.
End ManagedDialerV0.

(** ** The runtime connection (transport/v0 [Conn]) *)
Module RuntimeConnection.

  (** Modelled from the spec: the [Conn] type of transport/v0 is not part
      of the sources (only its test, dialer_test.go, is); this follows the
      life cycle of section 4.5 and the error taxonomy of section 7. *)
Inductive ConnState := Created | Active | Closed | Faulted.

Inductive ConnError :=
  | UseOfClosedConnection
  | Timeout
  | GuestFault (msg : string).

  (** What one call into a guest export (read, write) returns. *)
Inductive GuestResult :=
  | GuestOk (n : nat)
  | GuestTimeout
  | GuestTrap (msg : string).

  (** Modelled from the spec: the guest's exports as seen by the host, and
      the result of releasing the host-side resources on close. *)
Record Guest := {
    guest_read : nat -> GuestResult;
    guest_write : list Byte.byte -> GuestResult;
    teardown_error : option GoError
  }.

Definition io_result (s : ConnState) (r : GuestResult)
      : ConnState * (nat + ConnError) :=
    match r with
    | GuestOk n => (s, inl n)
    | GuestTimeout => (s, inr Timeout)
    | GuestTrap m => (Faulted, inr (GuestFault m))
    end.

  (** Modelled from the spec: [read(buf)] is valid only in [Active]. *)
Definition conn_read (g : Guest) (s : ConnState) (buflen : nat)
      : ConnState * (nat + ConnError) :=
    match s with
    | Active => io_result Active (guest_read g buflen)
    | _ => (s, inr UseOfClosedConnection)
    end.

  (** Modelled from the spec: [write(buf)] is symmetric to [read]. *)
Definition conn_write (g : Guest) (s : ConnState) (buf : list Byte.byte)
      : ConnState * (nat + ConnError) :=
    match s with
    | Active => io_result Active (guest_write g buf)
    | _ => (s, inr UseOfClosedConnection)
    end.

  (** Modelled from the spec: [close()] calls the guest's close export
      best-effort (its fault is only logged), tears the core down and
      reports only a host-side release failure; a second [close()] is a
      no-op success, [Faulted] behaves like [Closed]. *)
Definition conn_close (g : Guest) (s : ConnState)
      : ConnState * option GoError :=
    match s with
    | Closed | Faulted => (s, None)
    | Created | Active => (Closed, teardown_error g)
    end.

Inductive ConnOp :=
  | OpRead (buflen : nat)
  | OpWrite (buf : list Byte.byte)
  | OpClose.

Inductive OpResult :=
  | ReadResult (r : nat + ConnError)
  | WriteResult (r : nat + ConnError)
  | CloseResult (r : option GoError).

Definition step (g : Guest) (s : ConnState) (op : ConnOp)
      : ConnState * OpResult :=
    match op with
    | OpRead n => let '(s', r) := conn_read g s n in (s', ReadResult r)
    | OpWrite b => let '(s', r) := conn_write g s b in (s', WriteResult r)
    | OpClose => let '(s', r) := conn_close g s in (s', CloseResult r)
    end.

Fixpoint run (g : Guest) (s : ConnState) (ops : list ConnOp)
      : ConnState * list OpResult :=
    match ops with
    | [] => (s, [])
    | op :: ops' =>
        let '(s1, r) := step g s op in
        let '(s2, rs) := run g s1 ops' in
        (s2, r :: rs)
    end.

  (** What the claim asks of every operation after a successful close. *)
Definition after_close_ok (r : OpResult) : bool :=
    match r with
    | ReadResult (inr _) | WriteResult (inr _) => true
    | CloseResult None => true
    | _ => false
    end.

End RuntimeConnection.

(** ** The byte-reversing transport module of the examples (testdata/v0/reverse.wasm) *)
Module RoundTrip.

Definition bytes := list Byte.byte.

  (** Modelled from the spec: a transport module transforms the bytes the
      application writes before they reach the raw connection, and the bytes
      read from the raw connection before they reach the application. *)
Record TransportModule := {
    on_write : bytes -> bytes;
    on_read : bytes -> bytes
  }.

  (** Modelled from the spec: reverse.wasm reverses on read and on write. *)
Definition reverse_module : TransportModule :=
    {| on_write := @rev Byte.byte; on_read := @rev Byte.byte |}.

  (** Modelled from the spec: the raw connection between the host using the
      module and its plain peer, one FIFO of messages per direction. *)
Record Wire := {
    to_peer : list bytes;
    to_host : list bytes
  }.

Definition empty_wire : Wire := {| to_peer := []; to_host := [] |}.

Definition host_write (m : TransportModule) (w : Wire) (msg : bytes) : Wire :=
    {| to_peer := to_peer w ++ [on_write m msg]; to_host := to_host w |}.

Definition peer_read (w : Wire) : option bytes * Wire :=
    match to_peer w with
    | [] => (None, w)
    | x :: rest => (Some x, {| to_peer := rest; to_host := to_host w |})
    end.

Definition peer_write (w : Wire) (msg : bytes) : Wire :=
    {| to_peer := to_peer w; to_host := to_host w ++ [msg] |}.

Definition host_read (m : TransportModule) (w : Wire) : option bytes * Wire :=
    match to_host w with
    | [] => (None, w)
    | x :: rest => (Some (on_read m x), {| to_peer := to_peer w; to_host := rest |})
    end.

  (** One exchange of testDialerPlain / ExampleListener: the host writes
      [a], the peer reads, the peer writes [b], the host reads. *)
Definition exchange (m : TransportModule) (w : Wire) (a b : bytes)
      : (option bytes * option bytes) * Wire :=
    let w1 := host_write m w a in
    let '(seen_by_peer, w2) := peer_read w1 in
    let w3 := peer_write w2 b in
    let '(seen_by_host, w4) := host_read m w3 in
    ((seen_by_peer, seen_by_host), w4).

Fixpoint exchanges (m : TransportModule) (w : Wire) (msgs : list (bytes * bytes))
      : list (option bytes * option bytes) * Wire :=
    match msgs with
    | [] => ([], w)
    | (a, b) :: rest =>
        let '(obs, w1) := exchange m w a b in
        let '(obss, w2) := exchanges m w1 rest in
        (obs :: obss, w2)
    end.

End RoundTrip.

(** ** ExampleListener (src/unnamed/part_002): the peer's echo goroutine *)
Module ExampleListener.

  (** What [tcpConn.Read(buf)] returns: [n] bytes (at most [len(buf)] =
      1024) or an error. *)
Inductive ReadResult :=
  | ReadData (chunk : RoundTrip.bytes)
  | ReadErr.

Inductive EchoEnd :=
  | EchoReturned
  | EchoPanicked (msg : string)
  | EchoBlocked.

Definition olleh : RoundTrip.bytes := String.list_byte_of_string "olleh".
Definition hello : RoundTrip.bytes := String.list_byte_of_string "hello".

  (** The [for] loop of the inner goroutine. [reads] are the successive
      results of [Read], [writes] whether each [Write] succeeds; running
      out of either means the call blocks. The result lists the messages
      passed to [Write] and how the goroutine ends. *)
Fixpoint echo_loop (reads : list ReadResult) (writes : list bool)
    : list RoundTrip.bytes * EchoEnd :=
  match reads with
  | [] => ([], EchoBlocked)
  | ReadErr :: _ => ([], EchoReturned)
  | ReadData c :: reads' =>
      if String.eqb (String.string_of_list_byte c) "olleh" then
        match writes with
        | [] => ([hello], EchoBlocked)
        | true :: writes' =>
            let '(out, e) := echo_loop reads' writes' in (hello :: out, e)
        | false :: _ => ([hello], EchoReturned)
        end
      else ([], EchoPanicked ("unexpected message: " +:+ String.string_of_list_byte c))
  end.

End ExampleListener.

(** * Properties *)

(** ** Registry *)
Module RegistryFacts.
Import Registry.

(** Sanity checks of the error texts. *)
Example unknown_version_text :
  Error (unknown_version_error 7) = "water: unknown version: 7".
Proof. reflexivity. Qed.

Example already_registered_text :
  already_registered_msg (-1) = "water: version -1 already registered".
Proof. reflexivity. Qed.

Section Facts.
Context {runtimeCore netConn RuntimeConn : Type}.
Abbreviation registry := (@registry runtimeCore netConn RuntimeConn).
Abbreviation OutboundCtor := (@OutboundCtor runtimeCore RuntimeConn).

  (** A successful registration never removes nor replaces an outbound
      entry. *)
Lemma register_keeps_outbound (r r' : registry) op v (f : OutboundCtor) :
    mapOBRCV r !! v = Some f -> register r op = Return r' ->
    mapOBRCV r' !! v = Some f.
  Proof.
    intros Hv Hreg. destruct op as [v' f'|v' f']; simpl in Hreg.
    - unfold RegisterOutboundRuntimeConnWithVersion in Hreg.
      destruct (mapOBRCV r !! v') eqn:Hv'; [discriminate|].
      injection Hreg as <-. simpl.
      rewrite lookup_insert_ne; [exact Hv|].
      intros ->. congruence.
    - unfold RegisterInboundRuntimeConnWithVersion in Hreg.
      destruct (mapIBRCV r !! v'); [discriminate|].
      injection Hreg as <-. exact Hv.
  Qed.

Lemma register_all_keeps_outbound (ops : list registration) :
    forall (r r' : registry) v (f : OutboundCtor),
    mapOBRCV r !! v = Some f -> register_all r ops = Return r' ->
    mapOBRCV r' !! v = Some f.
  Proof.
    induction ops as [|op ops IH]; simpl; intros r r' v f Hv Hrun.
    - injection Hrun as <-. exact Hv.
    - destruct (register r op) as [r1|msg] eqn:Hop; [|discriminate].
      eapply IH; [|exact Hrun].
      eapply register_keeps_outbound; eauto.
  Qed.

Lemma outbound_lookup_pure (r : registry) core v :
    snd (OutboundRuntimeConnWithVersion r core v) = r.
  Proof. unfold OutboundRuntimeConnWithVersion. by destruct (mapOBRCV r !! v). Qed.

Lemma inbound_lookup_pure (r : registry) core v ibc :
    snd (InboundRuntimeConnWithVersion r core v ibc) = r.
  Proof. unfold InboundRuntimeConnWithVersion. by destruct (mapIBRCV r !! v). Qed.

  (** Claim C1: for a version with no outbound (resp. inbound) constructor,
      [OutboundRuntimeConnWithVersion] (resp. [InboundRuntimeConnWithVersion])
      returns a nil connection and the error "water: unknown version: v",
      for every core and raw connection, and calls no constructor. *)
Theorem unknown_version_fails (r : registry) (core : runtimeCore)
      (ibc : netConn) (v : Z) :
    (mapOBRCV r !! v = None ->
     OutboundRuntimeConnWithVersion r core v
       = ((None, Some (unknown_version_error v)), r)) /\
    (mapIBRCV r !! v = None ->
     InboundRuntimeConnWithVersion r core v ibc
       = ((None, Some (unknown_version_error v)), r)).
  Proof.
    unfold OutboundRuntimeConnWithVersion, InboundRuntimeConnWithVersion.
    unfold OutboundCtor, InboundCtor, ConnResult in *.
    split; intros Hnone; by rewrite Hnone.
  Qed.

  (** Claim C2: registering an outbound (resp. inbound) constructor for a
      version already in the outbound (resp. inbound) map panics with
      "water: version v already registered", whatever the constructor. *)
Theorem duplicate_registration_panics (r : registry) (v : Z) :
    (forall f, is_Some (mapOBRCV r !! v) ->
     RegisterOutboundRuntimeConnWithVersion r v f
       = Panic (already_registered_msg v)) /\
    (forall f, is_Some (mapIBRCV r !! v) ->
     RegisterInboundRuntimeConnWithVersion r v f
       = Panic (already_registered_msg v)).
  Proof.
    unfold RegisterOutboundRuntimeConnWithVersion,
      RegisterInboundRuntimeConnWithVersion.
    unfold OutboundCtor, InboundCtor, ConnResult in *.
    split; intros f [g Hg]; by rewrite Hg.
  Qed.

  (** Claim C10: once [v] has been registered as outbound with [f], after
      any further successful registrations a lookup of [v] returns exactly
      [f core] and leaves the registry unchanged (the inbound lookup too);
      the outbound registration leaves the inbound map as it was, so an
      unknown inbound version stays unknown. *)
Theorem registered_outbound_lookup (r r1 r2 : registry) (v : Z)
      (f : OutboundCtor) (ops : list registration) (core : runtimeCore)
      (ibc : netConn) :
    RegisterOutboundRuntimeConnWithVersion r v f = Return r1 ->
    register_all r1 ops = Return r2 ->
    OutboundRuntimeConnWithVersion r2 core v = (f core, r2) /\
    snd (InboundRuntimeConnWithVersion r2 core v ibc) = r2 /\
    mapIBRCV r1 = mapIBRCV r /\
    (mapIBRCV r !! v = None ->
     InboundRuntimeConnWithVersion r1 core v ibc
       = ((None, Some (unknown_version_error v)), r1)).
  Proof.
    intros Hreg Hrun.
    unfold RegisterOutboundRuntimeConnWithVersion in Hreg.
    case_match; [discriminate|].
    injection Hreg as <-.
    assert (Hr2 : mapOBRCV r2 !! v = Some f).
    { eapply register_all_keeps_outbound; [|exact Hrun].
      simpl. apply lookup_insert_eq. }
    split; [|split; [|split]].
    - unfold OutboundRuntimeConnWithVersion.
      unfold OutboundCtor, ConnResult in *. by rewrite Hr2.
    - apply inbound_lookup_pure.
    - reflexivity.
    - intros Hin. unfold InboundRuntimeConnWithVersion. simpl.
      unfold InboundCtor, ConnResult in *. by rewrite Hin.
  Qed.

End Facts.

(** A concrete registry: version 0 registered as outbound only. *)
Definition ctor_v0 : @Registry.OutboundCtor unit bool :=
  fun _ => (Some true, None).

Lemma unknown_version_fails_witness :
  let r := @empty_registry unit unit bool in
  (mapOBRCV r !! 3 = None /\ mapIBRCV r !! 3 = None) /\
  (OutboundRuntimeConnWithVersion r tt 3
     = ((None, Some (unknown_version_error 3)), r)) /\
  (InboundRuntimeConnWithVersion r tt 3 tt
     = ((None, Some (unknown_version_error 3)), r)).
Proof.
  simpl. split; [split; reflexivity|].
  pose proof (unknown_version_fails (@empty_registry unit unit bool) tt tt 3)
    as [H1 H2].
  split; [apply H1 | apply H2]; reflexivity.
Defined.

Lemma duplicate_registration_panics_witness :
  let r := {| mapOBRCV := {[0 := ctor_v0]};
              mapIBRCV := {[0 := fun _ _ => (None, None)]} |}
           : @registry unit unit bool in
  is_Some (mapOBRCV r !! 0) /\ is_Some (mapIBRCV r !! 0) /\
  RegisterOutboundRuntimeConnWithVersion r 0 ctor_v0
    = Panic (already_registered_msg 0) /\
  RegisterInboundRuntimeConnWithVersion r 0 (fun _ _ => (Some false, None))
    = Panic (already_registered_msg 0).
Proof.
  simpl.
  pose proof (duplicate_registration_panics
    ({| mapOBRCV := {[0 := ctor_v0]};
        mapIBRCV := {[0 := fun _ _ => (None, None)]} |}
     : @registry unit unit bool) 0) as [H1 H2].
  split; [eexists; reflexivity|].
  split; [eexists; reflexivity|].
  split; [apply H1 | apply H2]; eexists; reflexivity.
Defined.

Lemma registered_outbound_lookup_witness :
  let r := @empty_registry unit unit bool in
  let r1 := {| mapOBRCV := {[0 := ctor_v0]}; mapIBRCV := ∅ |} in
  let ops := [RegOutbound 1 ctor_v0; RegInbound 0 (fun _ _ => (None, None))] in
  let r2 := {| mapOBRCV := <[1 := ctor_v0]> {[0 := ctor_v0]};
               mapIBRCV := {[0 := fun _ _ => (None, None)]} |} in
  RegisterOutboundRuntimeConnWithVersion r 0 ctor_v0 = Return r1 /\
  register_all r1 ops = Return r2 /\
  OutboundRuntimeConnWithVersion r2 tt 0 = (ctor_v0 tt, r2).
Proof.
  simpl. split; [reflexivity|]. split; [reflexivity|].
  refine (proj1 (registered_outbound_lookup
    (@empty_registry unit unit bool) _ _ 0 ctor_v0
    [RegOutbound 1 ctor_v0; RegInbound 0 (fun _ _ => (None, None))] tt tt
    eq_refl eq_refl)).
Defined.
End RegistryFacts.

(** ** The connect host import of transport/v0 *)
Module ConnectFacts.
Import V0.

Section Facts.
Context {Caller World : Type}.
Context (INVALID_ARGUMENT INVALID_FUNCTION : Z).

Local Abbreviation Wrap :=
    (@WrapConnectFunc Caller World INVALID_ARGUMENT).

  (** Claim C3 (as amended): when [f] returns an error, the wrapped import
      hands [f]'s fd back together with a trap carrying [f]'s error
      message, so the guest's call is aborted by the trap. *)
Theorem connect_error_traps (f : @WASIConnectFunc Caller World)
      (caller : Caller) (w w' : World) (fd : Z) (e : GoError) :
    f caller w = (w', (fd, Some e)) ->
    Wrap f caller [] w
      = (w', ([ValI32 fd], Some (NewTrap ("v0.WASIConnectFunc: " +:+ Error e)))).
  Proof. intros Hf. unfold WrapConnectFunc. simpl. by rewrite Hf. Qed.

  (** Claim C9: with a non-empty argument list the wrapped function does
      not call [f] (the host state is untouched and the result is the
      same for every [f]) and returns [INVALID_ARGUMENT] with a trap; with
      no argument the result is the one of [f]'s call, with [f]'s fd and a
      trap exactly when [f] returned an error. *)
Theorem connect_argument_check (f g : @WASIConnectFunc Caller World)
      (caller : Caller) (w : World) :
    (forall vals, vals <> [] ->
      Wrap f caller vals w
        = (w, ([ValI32 INVALID_ARGUMENT],
               Some (NewTrap (sprintf_d "v0.WASIConnectFunc expects 0 argument, got "
                                (Z.of_nat (length vals)) "")))) /\
      Wrap f caller vals w = Wrap g caller vals w) /\
    (forall w' fd err, f caller w = (w', (fd, err)) ->
      Wrap f caller [] w
        = (w', ([ValI32 fd],
                option_map (fun e => NewTrap ("v0.WASIConnectFunc: " +:+ Error e)) err))).
  Proof.
    split.
    - intros vals Hne. unfold WrapConnectFunc.
      destruct vals as [|v vals]; [congruence|]. simpl. split; reflexivity.
    - intros w' fd err Hf. unfold WrapConnectFunc. simpl. rewrite Hf.
      by destruct err.
  Qed.

  (** Claim C5: every invocation of the stubbed connect import fails: it
      returns one negative error code together with a trap, never a result
      without a trap; through the declared signature (no parameter) the
      code is [INVALID_FUNCTION] and the host state is untouched. *)
Theorem unimplemented_connect_fails (HA : INVALID_ARGUMENT < 0)
      (HF : INVALID_FUNCTION < 0) (caller : Caller) (vals : list Val)
      (w : World) :
    exists code tr,
      @WrappedUnimplementedWASIConnectFunc Caller World
        INVALID_ARGUMENT INVALID_FUNCTION caller vals w
        = (w, ([ValI32 code], Some tr)) /\
      code < 0 /\
      (vals = [] -> code = INVALID_FUNCTION /\
        tr = NewTrap "v0.WASIConnectFunc: NOP WASIConnectFunc is called").
  Proof.
    unfold WrappedUnimplementedWASIConnectFunc, WrapConnectFunc,
      unimplementedWASIConnectFunc.
    destruct vals as [|v vals]; simpl.
    - eexists _, _. split; [reflexivity|]. split; [exact HF|]. done.
    - eexists _, _. split; [reflexivity|]. split; [exact HA|]. done.
  Qed.

End Facts.

(** A connect function that counts its calls in the host state and fails. *)
Definition counting_failing_connect : @WASIConnectFunc unit nat :=
  fun _ n => (S n, (-7, Some {| Error := "dial tcp: connection refused" |})).

Definition counting_ok_connect : @WASIConnectFunc unit nat :=
  fun _ n => (S n, (3, None)).

(** Claim C3 as stated fails: here [f] returns an error and the wrapped
    import raises a trap. *)
Lemma connect_error_no_trap_counterexample :
  counting_failing_connect tt 0%nat = (1%nat, (-7, Some {| Error := "dial tcp: connection refused" |})) /\
  snd (snd (WrapConnectFunc (-1) counting_failing_connect tt [] 0%nat)) <> None.
Proof. split; [reflexivity|]. vm_compute. discriminate. Qed.

Lemma connect_error_traps_witness :
  counting_failing_connect tt 0%nat
    = (1%nat, (-7, Some {| Error := "dial tcp: connection refused" |})) /\
  WrapConnectFunc (-1) counting_failing_connect tt [] 0%nat
    = (1%nat, ([ValI32 (-7)],
        Some (NewTrap "v0.WASIConnectFunc: dial tcp: connection refused"))).
Proof.
  split; [reflexivity|].
  exact (connect_error_traps (-1) counting_failing_connect tt 0%nat 1%nat (-7)
           {| Error := "dial tcp: connection refused" |} eq_refl).
Defined.

Lemma connect_argument_check_witness :
  [ValI32 1] <> [] /\
  WrapConnectFunc (-1) counting_ok_connect tt [ValI32 1] 0%nat
    = (0%nat, ([ValI32 (-1)],
        Some (NewTrap "v0.WASIConnectFunc expects 0 argument, got 1"))) /\
  counting_ok_connect tt 0%nat = (1%nat, (3, None)) /\
  WrapConnectFunc (-1) counting_ok_connect tt [] 0%nat
    = (1%nat, ([ValI32 3], None)).
Proof.
  destruct (connect_argument_check (-1) counting_ok_connect
              counting_failing_connect tt 0%nat) as [H1 H2].
  split; [discriminate|].
  split; [exact (proj1 (H1 [ValI32 1] ltac:(discriminate)))|].
  split; [reflexivity|].
  exact (H2 1%nat 3 None eq_refl).
Defined.

Lemma unimplemented_connect_fails_witness :
  -1 < 0 /\ -2 < 0 /\
  exists code tr,
    @WrappedUnimplementedWASIConnectFunc unit nat (-1) (-2) tt [] 0%nat
      = (0%nat, ([ValI32 code], Some tr)) /\ code < 0 /\
    (([] : list Val) = [] -> code = -2 /\
      tr = NewTrap "v0.WASIConnectFunc: NOP WASIConnectFunc is called").
Proof.
  split; [lia|]. split; [lia|].
  exact (unimplemented_connect_fails (-1) (-2) ltac:(lia) ltac:(lia) tt [] 0%nat).
Defined.

End ConnectFacts.

(** ** The managed dialer *)
Module DialerFacts.
Import ManagedDialerV0.

(** Claim C4: [Dial] on a dialer built by [NewManagedDialer network address
    dialerFunc] is the call [dialerFunc network address], in every host
    state; [Dial] takes no other input, so nothing supplied after
    construction reaches the destination. *)
Theorem dial_uses_construction_target {netConn World : Type}
    (network address : string)
    (dialerFunc : @DialerFunc netConn World) (w : World) :
  Dial (NewManagedDialer network address dialerFunc) w
    = dialerFunc network address w.
Proof. reflexivity. Qed.

(** A dialer that records every destination it is asked for. *)
Definition recording_dialer : @DialerFunc unit (list (string * string)) :=
  fun n a log => (log ++ [(n, a)], (Some tt, None)).

Example dial_records_target :
  fst (Dial (NewManagedDialer "tcp" "127.0.0.1:8080" recording_dialer) [])
    = [("tcp", "127.0.0.1:8080")].
Proof. reflexivity. Qed.

End DialerFacts.

(** ** The runtime connection life cycle *)
Module ConnFacts.
Import RuntimeConnection.

Lemma closed_step_noop (g : Guest) (s : ConnState) (op : ConnOp) :
  s = Closed \/ s = Faulted ->
  fst (step g s op) = s /\ after_close_ok (snd (step g s op)) = true.
Proof. intros [-> | ->]; destruct op; split; reflexivity. Qed.

Lemma closed_run_noop (g : Guest) (ops : list ConnOp) :
  forall s, s = Closed \/ s = Faulted ->
  fst (run g s ops) = s /\ Forall (fun r => after_close_ok r = true) (snd (run g s ops)).
Proof.
  induction ops as [|op ops IH]; intros s Hs; simpl; [by split|].
  destruct (step g s op) as [s1 r] eqn:Hstep.
  pose proof (closed_step_noop g s op Hs) as [Hs1 Hr].
  rewrite Hstep in Hs1, Hr. simpl in Hs1, Hr. subst s1.
  destruct (run g s ops) as [s2 rs] eqn:Hrun.
  destruct (IH s Hs) as [IH1 IH2]. rewrite Hrun in IH1, IH2. simpl in *.
  split; [done|]. by constructor.
Qed.

(** Claim C6: once [close()] has returned without error, every later
    read and write fails, and every later [close()] succeeds without
    changing the state. *)
Theorem ops_after_close (g : Guest) (s s' : ConnState) (ops : list ConnOp) :
  conn_close g s = (s', None) ->
  fst (run g s' ops) = s' /\
  Forall (fun r => after_close_ok r = true) (snd (run g s' ops)).
Proof.
  intros Hclose. apply closed_run_noop.
  destruct s; simpl in Hclose; injection Hclose as <-; auto.
Qed.

Definition echo_guest : Guest :=
  {| guest_read := fun n => GuestOk n;
     guest_write := fun b => GuestOk (length b);
     teardown_error := None |}.

Lemma ops_after_close_witness :
  conn_close echo_guest Active = (Closed, None) /\
  run echo_guest Closed [OpWrite [Byte.x01]; OpRead 1024; OpClose]
    = (Closed, [WriteResult (inr UseOfClosedConnection);
                ReadResult (inr UseOfClosedConnection);
                CloseResult None]) /\
  fst (run echo_guest Closed [OpWrite [Byte.x01]; OpRead 1024; OpClose]) = Closed.
Proof.
  split; [reflexivity|]. split; [reflexivity|].
  exact (proj1 (ops_after_close echo_guest Active Closed
                  [OpWrite [Byte.x01]; OpRead 1024; OpClose] eq_refl)).
Defined.

End ConnFacts.

(** ** The byte-reversing round trip *)
Module RoundTripFacts.
Import RoundTrip.

Lemma exchange_empty (m : TransportModule) (a b : bytes) :
  exchange m empty_wire a b
    = ((Some (on_write m a), Some (on_read m b)), empty_wire).
Proof. reflexivity. Qed.

Lemma exchanges_empty (m : TransportModule) (msgs : list (bytes * bytes)) :
  exchanges m empty_wire msgs
    = (map (fun '(a, b) => (Some (on_write m a), Some (on_read m b))) msgs,
       empty_wire).
Proof.
  induction msgs as [|[a b] msgs IH]; [done|].
  cbn -[exchange empty_wire]. rewrite exchange_empty.
  cbn -[exchanges empty_wire]. rewrite IH. reflexivity.
Qed.

(** Claim C8: with the byte-reversing module, over any number of
    consecutive exchanges (ten in the tests), each message is observed by
    the other side reversed, in both directions, in order, and nothing is
    left over on the wire. *)
Theorem reverse_round_trip (msgs : list (bytes * bytes)) :
  exchanges reverse_module empty_wire msgs
    = (map (fun '(a, b) => (Some (rev a), Some (rev b))) msgs, empty_wire).
Proof. apply exchanges_empty. Qed.

(** The scenario of ExampleListener: "hello" is seen as "olleh". *)
Example hello_olleh :
  exchange reverse_module empty_wire
    (String.list_byte_of_string "hello") (String.list_byte_of_string "hello")
  = ((Some (String.list_byte_of_string "olleh"),
      Some (String.list_byte_of_string "olleh")), empty_wire).
Proof. reflexivity. Qed.

End RoundTripFacts.

(** ** More of the registry: sequences of registrations *)
Module RegistryExtra.
Import Registry.

Section Extra.
Context {runtimeCore netConn RuntimeConn : Type}.
Local Abbreviation registry := (@registry runtimeCore netConn RuntimeConn).
Local Abbreviation registration := (@registration runtimeCore netConn RuntimeConn).

Lemma register_outbound_fresh (r : registry) v f :
  mapOBRCV r !! v = None ->
  RegisterOutboundRuntimeConnWithVersion r v f
    = Return {| mapOBRCV := <[v := f]> (mapOBRCV r); mapIBRCV := mapIBRCV r |}.
Proof.
  intros Hv. unfold RegisterOutboundRuntimeConnWithVersion.
  unfold OutboundCtor, ConnResult in *. by rewrite Hv.
Qed.

Lemma register_outbound_taken (r : registry) v f :
  is_Some (mapOBRCV r !! v) ->
  RegisterOutboundRuntimeConnWithVersion r v f = Panic (already_registered_msg v).
Proof.
  intros [g Hv]. unfold RegisterOutboundRuntimeConnWithVersion.
  unfold OutboundCtor, ConnResult in *. by rewrite Hv.
Qed.

Lemma register_inbound_fresh (r : registry) v f :
  mapIBRCV r !! v = None ->
  RegisterInboundRuntimeConnWithVersion r v f
    = Return {| mapOBRCV := mapOBRCV r; mapIBRCV := <[v := f]> (mapIBRCV r) |}.
Proof.
  intros Hv. unfold RegisterInboundRuntimeConnWithVersion.
  unfold InboundCtor, ConnResult in *. by rewrite Hv.
Qed.

Lemma register_inbound_taken (r : registry) v f :
  is_Some (mapIBRCV r !! v) ->
  RegisterInboundRuntimeConnWithVersion r v f = Panic (already_registered_msg v).
Proof.
  intros [g Hv]. unfold RegisterInboundRuntimeConnWithVersion.
  unfold InboundCtor, ConnResult in *. by rewrite Hv.
Qed.

(** Every version still free after inserting [v] is free before and
    differs from [v]. *)
Lemma Forall_free_insert {A : Type} (m : gmap Z A) v (x : A) (l : list Z) :
  Forall (fun u => <[v := x]> m !! u = None) l <->
  (v ∉ l) /\ Forall (fun u => m !! u = None) l.
Proof.
  rewrite !Forall_forall. setoid_rewrite lookup_insert_None. naive_solver.
Qed.

(** A sequence of registrations (the [init] functions of the version
    packages) completes without panic exactly when, in each direction, its
    versions are pairwise distinct and none is registered already. *)
Theorem register_all_succeeds_iff (ops : list registration) :
  forall (r : registry),
  (exists r', register_all r ops = Return r') <->
  NoDup (outbound_versions ops) /\
  Forall (fun v => mapOBRCV r !! v = None) (outbound_versions ops) /\
  NoDup (inbound_versions ops) /\
  Forall (fun v => mapIBRCV r !! v = None) (inbound_versions ops).
Proof.
  induction ops as [|[v f|v f] ops IH]; intros r.
  - simpl. split; [intros _; repeat split; constructor | eauto].
  - unfold outbound_versions, inbound_versions in *. simpl.
    destruct (mapOBRCV r !! v) as [g|] eqn:Hv.
    + rewrite register_outbound_taken by eauto.
      split; [intros [r' Hr']; discriminate|].
      intros (_ & Hfree & _). apply Forall_cons_1 in Hfree as [Hfree _].
      congruence.
    + rewrite register_outbound_fresh by exact Hv.
      rewrite IH. simpl. rewrite Forall_free_insert, NoDup_cons, Forall_cons.
      naive_solver.
  - unfold outbound_versions, inbound_versions in *. simpl.
    destruct (mapIBRCV r !! v) as [g|] eqn:Hv.
    + rewrite register_inbound_taken by eauto.
      split; [intros [r' Hr']; discriminate|].
      intros (_ & _ & _ & Hfree). apply Forall_cons_1 in Hfree as [Hfree _].
      congruence.
    + rewrite register_inbound_fresh by exact Hv.
      rewrite IH. simpl. rewrite Forall_free_insert, NoDup_cons, Forall_cons.
      naive_solver.
Qed.

Lemma register_all_keeps (ops : list registration) :
  forall (r r' : registry), register_all r ops = Return r' ->
  (forall v f, mapOBRCV r !! v = Some f -> mapOBRCV r' !! v = Some f) /\
  (forall v f, mapIBRCV r !! v = Some f -> mapIBRCV r' !! v = Some f).
Proof.
  induction ops as [|[v f|v f] ops IH]; intros r r' Hrun; simpl in Hrun.
  - injection Hrun as <-. split; auto.
  - destruct (mapOBRCV r !! v) eqn:Hv.
    + rewrite register_outbound_taken in Hrun by eauto. discriminate.
    + rewrite register_outbound_fresh in Hrun by exact Hv.
      destruct (IH _ _ Hrun) as [IH1 IH2]. simpl in *. split; [|exact IH2].
      intros u g Hu. apply IH1. rewrite lookup_insert_ne; [exact Hu|congruence].
  - destruct (mapIBRCV r !! v) eqn:Hv.
    + rewrite register_inbound_taken in Hrun by eauto. discriminate.
    + rewrite register_inbound_fresh in Hrun by exact Hv.
      destruct (IH _ _ Hrun) as [IH1 IH2]. simpl in *. split; [exact IH1|].
      intros u g Hu. apply IH2. rewrite lookup_insert_ne; [exact Hu|congruence].
Qed.

Lemma register_all_maps (ops : list registration) :
  forall (r r' : registry), register_all r ops = Return r' ->
  (forall v f, RegOutbound v f ∈ ops -> mapOBRCV r' !! v = Some f) /\
  (forall v f, RegInbound v f ∈ ops -> mapIBRCV r' !! v = Some f) /\
  (forall v, v ∉ outbound_versions ops -> mapOBRCV r' !! v = mapOBRCV r !! v) /\
  (forall v, v ∉ inbound_versions ops -> mapIBRCV r' !! v = mapIBRCV r !! v).
Proof.
  induction ops as [|[v f|v f] ops IH]; intros r r' Hrun; simpl in Hrun.
  - injection Hrun as <-. split; [|split]; [intros ?? Hin; inversion Hin ..|].
    split; reflexivity.
  - destruct (mapOBRCV r !! v) eqn:Hv.
    + rewrite register_outbound_taken in Hrun by eauto. discriminate.
    + rewrite register_outbound_fresh in Hrun by exact Hv.
      destruct (IH _ _ Hrun) as (IH1 & IH2 & IH3 & IH4).
      pose proof (register_all_keeps _ _ _ Hrun) as [K1 _].
      unfold outbound_versions, inbound_versions in *. simpl in *.
      split; [|split; [|split]].
      * intros u g Hin. apply elem_of_cons in Hin as [Heq|Hin]; [|auto].
        injection Heq as -> ->. apply K1. apply lookup_insert_eq.
      * intros u g Hin. apply elem_of_cons in Hin as [Heq|Hin];
          [discriminate|auto].
      * intros u Hu. rewrite not_elem_of_cons in Hu. destruct Hu as [Hne Hu].
        rewrite IH3 by exact Hu. by rewrite lookup_insert_ne.
      * exact IH4.
  - destruct (mapIBRCV r !! v) eqn:Hv.
    + rewrite register_inbound_taken in Hrun by eauto. discriminate.
    + rewrite register_inbound_fresh in Hrun by exact Hv.
      destruct (IH _ _ Hrun) as (IH1 & IH2 & IH3 & IH4).
      pose proof (register_all_keeps _ _ _ Hrun) as [_ K2].
      unfold outbound_versions, inbound_versions in *. simpl in *.
      split; [|split; [|split]].
      * intros u g Hin. apply elem_of_cons in Hin as [Heq|Hin];
          [discriminate|auto].
      * intros u g Hin. apply elem_of_cons in Hin as [Heq|Hin]; [|auto].
        injection Heq as -> ->. apply K2. apply lookup_insert_eq.
      * exact IH3.
      * intros u Hu. rewrite not_elem_of_cons in Hu. destruct Hu as [Hne Hu].
        rewrite IH4 by exact Hu. by rewrite lookup_insert_ne.
Qed.

(** After a sequence of registrations completes, every version it
    registered is served by its own constructor, in either direction, and
    a version it did not register in a direction (nor was before) is still
    an unknown version there. *)
Theorem register_all_lookup (ops : list registration) (r r' : registry) :
  register_all r ops = Return r' ->
  (forall v f core, RegOutbound v f ∈ ops ->
     OutboundRuntimeConnWithVersion r' core v = (f core, r')) /\
  (forall v f core ibc, RegInbound v f ∈ ops ->
     InboundRuntimeConnWithVersion r' core v ibc = (f core ibc, r')) /\
  (forall v core, v ∉ outbound_versions ops -> mapOBRCV r !! v = None ->
     OutboundRuntimeConnWithVersion r' core v
       = ((None, Some (unknown_version_error v)), r')) /\
  (forall v core ibc, v ∉ inbound_versions ops -> mapIBRCV r !! v = None ->
     InboundRuntimeConnWithVersion r' core v ibc
       = ((None, Some (unknown_version_error v)), r')).
Proof.
  intros Hrun. destruct (register_all_maps _ _ _ Hrun) as (M1 & M2 & M3 & M4).
  unfold OutboundRuntimeConnWithVersion, InboundRuntimeConnWithVersion.
  unfold OutboundCtor, InboundCtor, ConnResult in *.
  split; [|split; [|split]].
  - intros v f core Hin. by rewrite (M1 v f Hin).
  - intros v f core ibc Hin. by rewrite (M2 v f Hin).
  - intros v core Hv Hr. by rewrite (M3 v Hv), Hr.
  - intros v core ibc Hv Hr. by rewrite (M4 v Hv), Hr.
Qed.

Lemma register_swap (r r1 r2 : registry) (x y : registration) :
  register r x = Return r1 -> register r1 y = Return r2 ->
  exists r1', register r y = Return r1' /\ register r1' x = Return r2.
Proof.
  destruct r as [mo mi].
  destruct x as [vx fx|vx fx], y as [vy fy|vy fy]; simpl; intros Hx Hy.
  - destruct (mo !! vx) eqn:Ex;
      [rewrite register_outbound_taken in Hx by eauto; discriminate|].
    rewrite register_outbound_fresh in Hx by exact Ex. injection Hx as <-.
    destruct (<[vx := fx]> mo !! vy) eqn:Ey;
      [rewrite register_outbound_taken in Hy by eauto; discriminate|].
    rewrite register_outbound_fresh in Hy by exact Ey. injection Hy as <-.
    simpl in *. apply lookup_insert_None in Ey as [Ey Hne].
    eexists. rewrite register_outbound_fresh by exact Ey. split; [reflexivity|].
    rewrite register_outbound_fresh by (simpl; by apply lookup_insert_None).
    simpl. by rewrite insert_insert_ne.
  - destruct (mo !! vx) eqn:Ex;
      [rewrite register_outbound_taken in Hx by eauto; discriminate|].
    rewrite register_outbound_fresh in Hx by exact Ex. injection Hx as <-.
    destruct (mi !! vy) eqn:Ey;
      [rewrite register_inbound_taken in Hy by eauto; discriminate|].
    rewrite register_inbound_fresh in Hy by exact Ey. injection Hy as <-.
    eexists. rewrite register_inbound_fresh by exact Ey. split; [reflexivity|].
    rewrite register_outbound_fresh by exact Ex. reflexivity.
  - destruct (mi !! vx) eqn:Ex;
      [rewrite register_inbound_taken in Hx by eauto; discriminate|].
    rewrite register_inbound_fresh in Hx by exact Ex. injection Hx as <-.
    destruct (mo !! vy) eqn:Ey;
      [rewrite register_outbound_taken in Hy by eauto; discriminate|].
    rewrite register_outbound_fresh in Hy by exact Ey. injection Hy as <-.
    eexists. rewrite register_outbound_fresh by exact Ey. split; [reflexivity|].
    rewrite register_inbound_fresh by exact Ex. reflexivity.
  - destruct (mi !! vx) eqn:Ex;
      [rewrite register_inbound_taken in Hx by eauto; discriminate|].
    rewrite register_inbound_fresh in Hx by exact Ex. injection Hx as <-.
    destruct (<[vx := fx]> mi !! vy) eqn:Ey;
      [rewrite register_inbound_taken in Hy by eauto; discriminate|].
    rewrite register_inbound_fresh in Hy by exact Ey. injection Hy as <-.
    simpl in *. apply lookup_insert_None in Ey as [Ey Hne].
    eexists. rewrite register_inbound_fresh by exact Ey. split; [reflexivity|].
    rewrite register_inbound_fresh by (simpl; by apply lookup_insert_None).
    simpl. by rewrite insert_insert_ne.
Qed.

(** The order in which the version packages register does not matter:
    any reordering of a sequence that completes completes with the same
    registry. *)
Theorem register_all_perm (ops ops' : list registration) :
  ops ≡ₚ ops' -> forall (r r' : registry),
  register_all r ops = Return r' -> register_all r ops' = Return r'.
Proof.
  induction 1 as [|x l l' Hp IH|x y l|l l' l'' H1 IH1 H2 IH2];
    intros r r' Hrun; simpl in *.
  - exact Hrun.
  - destruct (register r x) as [r1|msg]; [|discriminate]. by apply IH.
  - destruct (register r y) as [r1|msg] eqn:Hy; [|discriminate].
    destruct (register r1 x) as [r2|msg] eqn:Hx; [|discriminate].
    destruct (register_swap _ _ _ _ _ Hy Hx) as (r1' & Hx' & Hy').
    by rewrite Hx', Hy'.
  - by apply IH2, IH1.
Qed.

(** When a sequence of registrations panics, the panic names a version
    that one of its registrations tries to add to a map where it already
    is: registered before the sequence, or earlier in the sequence in the
    same direction. *)
Theorem register_all_panic_names_version (ops : list registration) :
  forall (r : registry) msg, register_all r ops = Panic msg ->
  exists v ops1 ops2, msg = already_registered_msg v /\
    ((exists f, ops = ops1 ++ RegOutbound v f :: ops2) /\
       (is_Some (mapOBRCV r !! v) \/ v ∈ outbound_versions ops1) \/
     (exists f, ops = ops1 ++ RegInbound v f :: ops2) /\
       (is_Some (mapIBRCV r !! v) \/ v ∈ inbound_versions ops1)).
Proof.
  induction ops as [|[v f|v f] ops IH]; intros r msg Hrun; simpl in Hrun;
    [discriminate| |].
  - destruct (mapOBRCV r !! v) eqn:Hv.
    + rewrite register_outbound_taken in Hrun by eauto. injection Hrun as <-.
      exists v, [], ops. split; [done|]. left. split; [by exists f|]. left; eauto.
    + rewrite register_outbound_fresh in Hrun by exact Hv.
      destruct (IH _ _ Hrun) as (v' & ops1 & ops2 & Hmsg & Hcase).
      exists v', (RegOutbound v f :: ops1), ops2. split; [exact Hmsg|].
      unfold outbound_versions, inbound_versions in *. simpl in *.
      destruct Hcase as [[[g ->] Hw] | [[g ->] Hw]].
      * left. split; [by exists g|].
        destruct Hw as [[x Hx]|Hw]; [|right; by apply elem_of_cons; right].
        destruct (decide (v' = v)) as [->|Hne];
          [right; apply elem_of_cons; by left|].
        left. rewrite lookup_insert_ne in Hx by congruence. eauto.
      * right. split; [by exists g|]. exact Hw.
  - destruct (mapIBRCV r !! v) eqn:Hv.
    + rewrite register_inbound_taken in Hrun by eauto. injection Hrun as <-.
      exists v, [], ops. split; [done|]. right. split; [by exists f|]. left; eauto.
    + rewrite register_inbound_fresh in Hrun by exact Hv.
      destruct (IH _ _ Hrun) as (v' & ops1 & ops2 & Hmsg & Hcase).
      exists v', (RegInbound v f :: ops1), ops2. split; [exact Hmsg|].
      unfold outbound_versions, inbound_versions in *. simpl in *.
      destruct Hcase as [[[g ->] Hw] | [[g ->] Hw]].
      * left. split; [by exists g|]. exact Hw.
      * right. split; [by exists g|].
        destruct Hw as [[x Hx]|Hw]; [|right; by apply elem_of_cons; right].
        destruct (decide (v' = v)) as [->|Hne];
          [right; apply elem_of_cons; by left|].
        left. rewrite lookup_insert_ne in Hx by congruence. eauto.
Qed.

End Extra.

Definition ob0 : @OutboundCtor unit bool := fun _ => (Some true, None).
Definition ib0 : @InboundCtor unit unit bool := fun _ _ => (Some false, None).

Definition init_ops : list (@registration unit unit bool) :=
  [RegOutbound 0 ob0; RegInbound 0 ib0; RegOutbound 1 ob0].

Lemma register_all_succeeds_iff_witness :
  (exists r', register_all (@empty_registry unit unit bool) init_ops = Return r') /\
  ~ (exists r', register_all (@empty_registry unit unit bool)
                  (init_ops ++ [RegInbound 0 ib0]) = Return r').
Proof.
  split.
  - apply (proj2 (register_all_succeeds_iff init_ops empty_registry)).
    vm_compute. repeat split; repeat constructor; set_solver.
  - rewrite (register_all_succeeds_iff (init_ops ++ [RegInbound 0 ib0])
               empty_registry).
    intros (_ & _ & Hnd & _). vm_compute in Hnd.
    apply NoDup_cons in Hnd as [Hn _]. set_solver.
Defined.

Lemma register_all_lookup_witness :
  exists r', register_all (@empty_registry unit unit bool) init_ops = Return r' /\
    OutboundRuntimeConnWithVersion r' tt 1 = (ob0 tt, r') /\
    InboundRuntimeConnWithVersion r' tt 0 tt = (ib0 tt tt, r') /\
    InboundRuntimeConnWithVersion r' tt 1 tt
      = ((None, Some (unknown_version_error 1)), r').
Proof.
  eexists. split; [reflexivity|].
  destruct (register_all_lookup init_ops empty_registry _ eq_refl)
    as (L1 & L2 & _ & L4).
  split; [apply L1; set_solver|].
  split; [apply L2; set_solver|].
  apply L4; [vm_compute; set_solver | reflexivity].
Defined.

Lemma register_all_perm_witness :
  [RegOutbound 1 ob0; RegOutbound 0 ob0; RegInbound 0 ib0] ≡ₚ init_ops /\
  exists r', register_all (@empty_registry unit unit bool)
               [RegOutbound 1 ob0; RegOutbound 0 ob0; RegInbound 0 ib0] = Return r' /\
             register_all empty_registry init_ops = Return r'.
Proof.
  assert (Hp : [RegOutbound 1 ob0; RegOutbound 0 ob0; RegInbound 0 ib0] ≡ₚ init_ops).
  { unfold init_ops.
    transitivity [RegOutbound 0 ob0; RegOutbound 1 ob0; RegInbound 0 ib0];
      [apply perm_swap|].
    apply perm_skip, perm_swap. }
  split; [exact Hp|].
  eexists. split; [reflexivity|].
  exact (register_all_perm _ _ Hp empty_registry _ eq_refl).
Defined.

End RegistryExtra.

(** ** Error texts *)
Module ErrorTextFacts.
Import Registry.

Lemma list_ascii_of_string_app (a b : string) :
  String.list_ascii_of_string (a +:+ b)
    = String.list_ascii_of_string a ++ String.list_ascii_of_string b.
Proof. induction a as [|x a IH]; simpl; [done|by rewrite IH]. Qed.

Lemma string_app_cancel (a b s t : string) :
  s +:+ a +:+ t = s +:+ b +:+ t -> a = b.
Proof.
  intros H. apply (f_equal String.list_ascii_of_string) in H.
  rewrite !list_ascii_of_string_app in H.
  apply app_inv_head in H. apply app_inv_tail in H.
  rewrite <- (String.string_of_list_ascii_of_string a),
          <- (String.string_of_list_ascii_of_string b).
  by rewrite H.
Qed.

(** The text of the unknown-version error and of the duplicate
    registration panic name the version: distinct versions never give
    the same text. *)
Theorem error_texts_identify_version (v1 v2 : Z) :
  (Error (unknown_version_error v1) = Error (unknown_version_error v2) -> v1 = v2) /\
  (already_registered_msg v1 = already_registered_msg v2 -> v1 = v2).
Proof.
  unfold unknown_version_error, already_registered_msg, sprintf_d. simpl.
  split; intros H; apply (inj pretty); eapply string_app_cancel; exact H.
Qed.

Lemma error_texts_identify_version_witness :
  Error (unknown_version_error (-4)) = "water: unknown version: -4" /\
  already_registered_msg 12 = "water: version 12 already registered" /\
  (Error (unknown_version_error 12) = Error (unknown_version_error 12) -> 12 = 12).
Proof.
  split; [reflexivity|]. split; [reflexivity|].
  exact (proj1 (error_texts_identify_version 12 12)).
Defined.

End ErrorTextFacts.

(** ** The connect import against its declared signature *)
Module ConnectSignature.
Import V0.

(** Whatever the connect function, the arguments and the host state, the
    wrapped connect import returns exactly one i32 value, the single
    result [WASIConnectFuncType] declares. *)
Theorem connect_results_match_signature {Caller World : Type}
    (INVALID_ARGUMENT : Z) (f : @WASIConnectFunc Caller World)
    (caller : Caller) (vals : list Val) (w : World) :
  map val_kind (fst (snd (WrapConnectFunc INVALID_ARGUMENT f caller vals w)))
    = results WASIConnectFuncType.
Proof.
  unfold WrapConnectFunc.
  destruct (negb (length vals =? 0)%nat); [reflexivity|].
  destruct (f caller w) as [w' [fd [e|]]]; reflexivity.
Qed.

End ConnectSignature.

(** ** The echo goroutine of ExampleListener *)
Module EchoFacts.
Import ExampleListener.

Lemma olleh_eqb : String.eqb (String.string_of_list_byte olleh) "olleh" = true.
Proof. reflexivity. Qed.

Lemma echo_loop_prefix (k : nat) (rest : list ReadResult) (ws : list bool) :
  echo_loop (repeat (ReadData olleh) k ++ rest) (repeat true k ++ ws)
    = (repeat hello k ++ fst (echo_loop rest ws), snd (echo_loop rest ws)).
Proof.
  induction k as [|k IH]; simpl.
  - by destruct (echo_loop rest ws).
  - rewrite ?olleh_eqb, IH. reflexivity.
Qed.

(** The echo goroutine answers each "olleh" it reads with one "hello":
    after [k] such exchanges it blocks when no more data comes, returns on
    a read error or a failed write, and panics with "unexpected message: "
    and the chunk on the first chunk other than "olleh", without writing
    for it. *)
Theorem echo_loop_behaviour (k : nat) (ws : list bool) :
  echo_loop (repeat (ReadData olleh) k) (repeat true k ++ ws)
    = (repeat hello k, EchoBlocked) /\
  (forall rest, echo_loop (repeat (ReadData olleh) k ++ ReadErr :: rest)
                  (repeat true k ++ ws) = (repeat hello k, EchoReturned)) /\
  (forall rest ws', echo_loop (repeat (ReadData olleh) k ++ ReadData olleh :: rest)
                  (repeat true k ++ false :: ws')
                  = (repeat hello (S k), EchoReturned)) /\
  (forall c rest, String.string_of_list_byte c <> "olleh" ->
     echo_loop (repeat (ReadData olleh) k ++ ReadData c :: rest) (repeat true k ++ ws)
       = (repeat hello k,
          EchoPanicked ("unexpected message: " +:+ String.string_of_list_byte c))).
Proof.
  split; [|split; [|split]].
  - pose proof (echo_loop_prefix k [] ws) as H. rewrite app_nil_r in H.
    rewrite H. simpl. by rewrite app_nil_r.
  - intros rest. rewrite echo_loop_prefix. simpl. by rewrite app_nil_r.
  - intros rest ws'. rewrite echo_loop_prefix. simpl. rewrite ?olleh_eqb. simpl.
    by rewrite repeat_cons.
  - intros c rest Hc. rewrite echo_loop_prefix. simpl.
    apply String.eqb_neq in Hc. rewrite Hc. simpl. by rewrite app_nil_r.
Qed.

Lemma echo_loop_behaviour_witness :
  String.string_of_list_byte hello <> "olleh" /\
  echo_loop [ReadData olleh; ReadData olleh; ReadData hello] [true; true]
    = ([hello; hello], EchoPanicked "unexpected message: hello").
Proof.
  split; [discriminate|].
  exact (proj2 (proj2 (proj2 (echo_loop_behaviour 2 [])))
           hello [] ltac:(discriminate)).
Defined.

End EchoFacts.
